(** * Programmer's Notepad 2: the extension host [App] (pnwtl/extapp.cpp)

    A shallow embedding of the members of [App] that load and unload
    extensions, route extension commands, keep the event sinks and clear the
    user data, together with the properties of them that the specification
    states.

    Collaborators whose code lives elsewhere (the Extension class, Script,
    the options store, the directory helpers, the logging and assertion macros)
    appear at their interface: each call is recorded in a trace of events, and
    each value they return is taken from an oracle.  Calls back into [App]
    made from inside a collaborator are not modelled. *)

From Stdlib Require Import List String Ascii ZArith Lia Bool Arith.
Import ListNotations.

Local Open Scope string_scope.
Local Open Scope list_scope.

(** ** Strings and size_t *)

(** [tstring] is std::string: [App::RunExtensionCommand] builds one from a
    [const char*]. *)
Definition tstring : Type := string.
Definition tstring_list : Type := list tstring.

(** Programmer's Notepad is a Win32 program: size_t is an unsigned 32-bit
    integer. *)
Definition size_bits : Z := 32.

Definition to_size_t (z : Z) : Z := z mod 2 ^ size_bits.

(** std::string::npos, the largest size_t. *)
Definition npos : Z := 2 ^ size_bits - 1.

(** Position of the first occurrence of [c] in [s], counted from [i]. *)
Fixpoint find_from (c : ascii) (s : tstring) (i : nat) : option nat :=
  match s with
  | EmptyString => None
  | String x s' => if Ascii.eqb x c then Some i else find_from c s' (S i)
  end.

(** [str.find(c)]: the index of the first [c] as a size_t, or [npos]. *)
Definition find (s : tstring) (c : ascii) : Z :=
  match find_from c s 0 with
  | Some i => to_size_t (Z.of_nat i)
  | None => npos
  end.

(** [str.substr(pos, n)].  The only call in this file has [pos = 0], which
    is never past the end, so std::out_of_range cannot be thrown; [n] is
    clipped to the characters that are there. *)
Definition substr (s : tstring) (pos : nat) (n : Z) : tstring :=
  substring pos (Z.to_nat n) s.

(** [s[pos]] on a const std::string: the character at [pos] when
    [pos < size()], the null character when [pos = size()], and undefined
    behaviour beyond. *)
Definition at_index (s : tstring) (pos : nat) : option ascii :=
  if Nat.ltb pos (String.length s) then get pos s
  else if Nat.eqb pos (String.length s) then Some Ascii.zero
  else None.

(** ** Objects *)

(** An event sink is held through a shared pointer; two handles are equal
    when they point to the same object, which the address stands for. *)
Definition IAppEventSinkPtr : Type := nat.
Definition IDocumentPtr : Type := nat.

(** extensions::Extension (extension.h, not part of this file): built from a
    path, it knows whether loading it worked. *)
Record Extension : Type := mkExtension {
  ext_path : tstring;
  Valid : bool
}.

(** AppSettings: of its contents only the configured extension list is
    used here. *)
Record AppSettings : Type := mkAppSettings {
  GetExtensions : tstring_list
}.

(** CommandDispatch, built from the path of the keymap file. *)
Record CommandDispatch : Type := mkCommandDispatch {
  keymap_path : tstring
}.

Definition ExtensionList : Type := list Extension.
Definition EventSinkList : Type := list IAppEventSinkPtr.

(** The members of [App], and [g_Context.options], the global pointer to the
    options object ([None] is NULL, [Some tt] a live object). *)
Record App : Type := mkApp {
  m_bCanLoadExtensions : bool;
  m_exts : ExtensionList;
  m_sinks : EventSinkList;
  m_settings : AppSettings;
  m_dispatch : option CommandDispatch;
  g_Context_options : option unit
}.

Definition set_m_bCanLoadExtensions (b : bool) (a : App) : App :=
  mkApp b (m_exts a) (m_sinks a) (m_settings a) (m_dispatch a)
        (g_Context_options a).

Definition set_m_exts (l : ExtensionList) (a : App) : App :=
  mkApp (m_bCanLoadExtensions a) l (m_sinks a) (m_settings a) (m_dispatch a)
        (g_Context_options a).

Definition set_m_sinks (l : EventSinkList) (a : App) : App :=
  mkApp (m_bCanLoadExtensions a) (m_exts a) l (m_settings a) (m_dispatch a)
        (g_Context_options a).

Definition set_g_Context_options (o : option unit) (a : App) : App :=
  mkApp (m_bCanLoadExtensions a) (m_exts a) (m_sinks a) (m_settings a)
        (m_dispatch a) o.

(** ** Calls that leave [App] *)

Inductive Event : Type :=
| NewExtension (ext : Extension)
    (* new extensions::Extension(path, this) *)
| LOG (msg : tstring)
| UNEXPECTED (msg : tstring)
| ScriptRun (group name : tstring)
    (* Script s(group, name); s.Run(); *)
| OnAppCloseCall (sink : IAppEventSinkPtr)
| OnNewDocumentCall (sink : IAppEventSinkPtr) (doc : IDocumentPtr)
| UnloadCall (ext : Extension)
| DeleteSettings
    (* delete m_settings *)
| DeletionManagerDeleteAll
| OptionsFactoryRelease
| DeleteDispatch
    (* delete m_dispatch *)
| DeleteDirectoryCall (path : tstring) (recursive : bool)
| OptionsClear (subkey : tstring)
| CreateDirectoryRecursiveCall (path : tstring).

Definition Trace : Type := list Event.

(** ** The monad of member functions

    A member function reads and updates the [App] object, appends to the
    trace, and either returns or runs into undefined behaviour. *)

Inductive Outcome (A : Type) : Type :=
| Done (tr : Trace) (x : A) (a : App)
| Undefined (tr : Trace).

Arguments Done {A} tr x a.
Arguments Undefined {A} tr.

Definition M (A : Type) : Type := App -> Outcome A.

Definition ret {A : Type} (x : A) : M A := fun a => Done [] x a.

Definition bind {A B : Type} (m : M A) (f : A -> M B) : M B :=
  fun a =>
    match m a with
    | Done tr x a' =>
        match f x a' with
        | Done tr' y a'' => Done (tr ++ tr') y a''
        | Undefined tr' => Undefined (tr ++ tr')
        end
    | Undefined tr => Undefined tr
    end.

Definition this : M App := fun a => Done [] a a.
Definition modify (f : App -> App) : M unit := fun a => Done [] tt (f a).
Definition emit (e : Event) : M unit := fun a => Done [e] tt a.
Definition undefined {A : Type} : M A := fun _ => Undefined [].

Definition defined {A : Type} (o : option A) : M A :=
  match o with
  | Some x => ret x
  | None => undefined
  end.

Declare Scope app_scope.
Delimit Scope app_scope with app.
Notation "x <- m ;; k" := (bind m (fun x => k))
  (at level 61, m at next level, right associativity) : app_scope.
Notation "m ;; k" := (bind m (fun _ => k))
  (at level 61, right associativity) : app_scope.
Local Open Scope app_scope.

(** The loop over a list from begin() to end(), running [body] on each
    element in turn. *)
Fixpoint for_each {A : Type} (body : A -> M unit) (l : list A) : M unit :=
  match l with
  | [] => ret tt
  | x :: l' => body x ;; for_each body l'
  end.

(** What a run left behind. *)
Definition trace_of {A : Type} (o : Outcome A) : Trace :=
  match o with
  | Done tr _ _ => tr
  | Undefined tr => tr
  end.

Definition state_of {A : Type} (o : Outcome A) : option App :=
  match o with
  | Done _ _ a => Some a
  | Undefined _ => None
  end.

Definition value_of {A : Type} (o : Outcome A) : option A :=
  match o with
  | Done _ x _ => Some x
  | Undefined _ => None
  end.

(** ** Containers *)

(** [l.push_back(x)] *)
Definition push_back {A : Type} (x : A) (l : list A) : list A := l ++ [x].

(** [l.remove(sink)].  [EventSinkList] is declared in extapp.h; the member
    functions called on [m_sinks] here are push_back, remove, begin and end,
    and the standard sequence container that has both push_back and a
    one-argument remove is std::list.  std::list::remove erases every element
    that compares equal to its argument. *)
Fixpoint list_remove (sink : IAppEventSinkPtr) (l : EventSinkList)
  : EventSinkList :=
  match l with
  | [] => []
  | x :: l' =>
      if Nat.eqb x sink then list_remove sink l'
      else x :: list_remove sink l'
  end.

(** ** The member functions of [App] *)

Section Host.

(** What [ext->Valid()] answers for the Extension built from a path. *)
Variable Extension_Valid : tstring -> bool.
(** The results of the directory helpers. *)
Variable DeleteDirectory : tstring -> bool -> bool.
Variable CreateDirectoryRecursive : tstring -> bool.
(** The path [OPTIONS->GetPNPath] gives for PNPATH_USERSETTINGS. *)
Variable PNPATH_USERSETTINGS : tstring.
(** The key of the interface settings in the options store. *)
Variable PNSK_INTERFACE : tstring.

Definition new_Extension (path : tstring) : M Extension :=
  let ext := mkExtension path (Extension_Valid path) in
  emit (NewExtension ext) ;;
  ret ext.

(** [App::ensureUserSettingsDir] *)
Definition ensureUserSettingsDir : M unit :=
  let usPath := PNPATH_USERSETTINGS in
  emit (CreateDirectoryRecursiveCall usPath) ;;
  if negb (CreateDirectoryRecursive usPath)
  then emit (UNEXPECTED "Could not create user settings folder")
  else ret tt.

(** The body of the loop of [App::LoadExtensions].  Both reads of
    [path[0]] in the condition see the same character. *)
Definition LoadExtensions_body (path : tstring) : M unit :=
  c <- defined (at_index path 0) ;;
  if negb (Ascii.eqb c "#") && negb (Ascii.eqb c "!")
  then
    ext <- new_Extension path ;;
    if Valid ext
    then modify (fun a => set_m_exts (push_back ext (m_exts a)) a)
    else
      let msg := ("Failed to load extension: " ++ path)%string in
      emit (LOG msg)
  else ret tt.

(** [App::LoadExtensions] *)
Definition LoadExtensions : M unit :=
  a <- this ;;
  if negb (m_bCanLoadExtensions a) then ret tt
  else
    let extensions := GetExtensions (m_settings a) in
    for_each LoadExtensions_body extensions.

(** [App::RunExtensionCommand].  In [rindex == -1] the int is converted
    to size_t before the comparison. *)
Definition RunExtensionCommand (command : tstring) : M unit :=
  let str := command in
  let rindex := find str ":" in
  if (rindex =? to_size_t (-1))%Z then ret tt
  else
    let runner_id := substr str 0 rindex in
    if String.eqb runner_id "ext"
    then emit (UNEXPECTED "Not Yet Implemented")
    else emit (ScriptRun "" command).

(** [App::SetCanLoadExtensions] *)
Definition SetCanLoadExtensions (canLoad : bool) : M unit :=
  modify (set_m_bCanLoadExtensions canLoad).

(** [App::ClearUserData].  RETURN_UNEXPECTED reports the message and
    returns its second argument. *)
Definition ClearUserData : M bool :=
  let userSettingsDir := PNPATH_USERSETTINGS in
  emit (DeleteDirectoryCall userSettingsDir true) ;;
  if negb (DeleteDirectory userSettingsDir true)
  then
    emit (UNEXPECTED "Failed to delete user settings directory!") ;;
    ret false
  else
    emit (OptionsClear PNSK_INTERFACE) ;;
    ensureUserSettingsDir ;;
    ret true.

(** [App::unloadExtensions] *)
Definition unloadExtensions : M unit :=
  a <- this ;;
  for_each (fun i => emit (OnAppCloseCall i)) (m_sinks a) ;;
  a <- this ;;
  for_each (fun i => emit (UnloadCall i)) (m_exts a) ;;
  modify (set_m_exts []).

(** [App::deinit].  [delete m_dispatch] releases the dispatcher when there
    is one; on the NULL pointer that the constructor leaves until Init runs
    it does nothing. *)
Definition deinit : M unit :=
  unloadExtensions ;;
  emit DeleteSettings ;;
  emit DeletionManagerDeleteAll ;;
  emit OptionsFactoryRelease ;;
  modify (set_g_Context_options None) ;;
  a <- this ;;
  match m_dispatch a with
  | Some _ => emit DeleteDispatch
  | None => ret tt
  end.

(** [App::AddEventSink] *)
Definition AddEventSink (sink : IAppEventSinkPtr) : M unit :=
  modify (fun a => set_m_sinks (push_back sink (m_sinks a)) a).

(** [App::RemoveEventSink] *)
Definition RemoveEventSink (sink : IAppEventSinkPtr) : M unit :=
  modify (fun a => set_m_sinks (list_remove sink (m_sinks a)) a).

(** [App::OnNewDocument] *)
Definition OnNewDocument (doc : IDocumentPtr) : M unit :=
  a <- this ;;
  for_each (fun i => emit (OnNewDocumentCall i doc)) (m_sinks a).

End Host.

(** ** Reading a trace *)

(** The Extension objects built, in the order they were built. *)
Fixpoint constructions (tr : Trace) : list Extension :=
  match tr with
  | [] => []
  | NewExtension ext :: tr' => ext :: constructions tr'
  | _ :: tr' => constructions tr'
  end.

(** The messages passed to LOG. *)
Fixpoint log_entries (tr : Trace) : list tstring :=
  match tr with
  | [] => []
  | LOG msg :: tr' => msg :: log_entries tr'
  | _ :: tr' => log_entries tr'
  end.

(** The scripts run, each with the two arguments of its constructor. *)
Fixpoint scripts_run (tr : Trace) : list (tstring * tstring) :=
  match tr with
  | [] => []
  | ScriptRun group name :: tr' => (group, name) :: scripts_run tr'
  | _ :: tr' => scripts_run tr'
  end.

(** How many calls (OnAppClose or OnNewDocument) a sink received. *)
Fixpoint invocations (sink : IAppEventSinkPtr) (tr : Trace) : nat :=
  match tr with
  | [] => 0
  | OnAppCloseCall s :: tr' =>
      (if Nat.eqb s sink then 1 else 0) + invocations sink tr'
  | OnNewDocumentCall s _ :: tr' =>
      (if Nat.eqb s sink then 1 else 0) + invocations sink tr'
  | _ :: tr' => invocations sink tr'
  end.

(** An entry of the extension list that starts with '#' or '!'. *)
Definition disabled (path : tstring) : bool :=
  match path with
  | String c _ => Ascii.eqb c "#" || Ascii.eqb c "!"
  | EmptyString => false
  end.

(** Whether a character occurs in a string. *)
Fixpoint occurs (c : ascii) (s : tstring) : bool :=
  match s with
  | EmptyString => false
  | String x s' => Ascii.eqb x c || occurs c s'
  end.

(** The state the constructor's initialisers leave: no dispatcher yet,
    extensions permitted, no extension and no sink, the options object
    made. *)
Definition App_initial (settings : AppSettings) : App :=
  mkApp true [] [] settings None (Some tt).

(** The part of a string before the first occurrence of [c], when there is
    one: for a command string and ':' this is the runner id. *)
Fixpoint before_first (c : ascii) (s : tstring) : option tstring :=
  match s with
  | EmptyString => None
  | String x s' =>
      if Ascii.eqb x c then Some EmptyString
      else option_map (String x) (before_first c s')
  end.

(** What one entry of the extension list contributes to the trace and to
    the owned list when extensions are loaded. *)
Definition load_events (V : tstring -> bool) (path : tstring) : Trace :=
  if disabled path then []
  else if V path then [NewExtension (mkExtension path true)]
  else [NewExtension (mkExtension path false);
        LOG ("Failed to load extension: " ++ path)%string].

Definition load_kept (V : tstring -> bool) (path : tstring) : ExtensionList :=
  if disabled path then []
  else if V path then [mkExtension path true]
  else [].

(** The Unload calls of a trace. *)
Fixpoint unloads (tr : Trace) : list Extension :=
  match tr with
  | [] => []
  | UnloadCall ext :: tr' => ext :: unloads tr'
  | _ :: tr' => unloads tr'
  end.

(** ** Starting up *)

(** The keys of [OPTIONS->GetPNPath] used in this file. *)
Inductive PNPath : Type :=
| PNPATH_SCHEMES
| PNPATH_COMPILEDSCHEMES
| PNPATH_USERSETTINGS.

(** The calls the constructor and [App::Init] make, beside those of the
    member functions above. *)
Inductive StartupCall : Type :=
| InitResourceLoader
    (* L10N::StringLoader::InitResourceLoader() *)
| NewAppSettings
    (* new AppSettings() *)
| MakeOptions
    (* m_settings->MakeOptions() *)
| LoadCache
    (* OPTIONS->LoadCache() *)
| SetPath (path : tstring)
| SetCompiledPath (path : tstring)
| SchemeManagerLoad
    (* SM.Load() *)
| NewCommandDispatch (keypath : tstring)
| AppCall (e : Event).

Inductive Startup : Type :=
| Started (tr : list StartupCall) (a : App)
| StartupUndefined (tr : list StartupCall).

Definition set_m_dispatch (d : option CommandDispatch) (a : App) : App :=
  mkApp (m_bCanLoadExtensions a) (m_exts a) (m_sinks a) (m_settings a) d
        (g_Context_options a).

Section StartingUp.

(** What [new AppSettings()] reads from the configuration. *)
Variable settings : AppSettings.
Variable GetPNPath : PNPath -> tstring.
Variable CreateDirectoryRecursive : tstring -> bool.

(** [App::App]: the member initialisers, then the body. *)
Definition App_App : Startup :=
  let a := mkApp true [] [] settings None (Some tt) in
  match
    ensureUserSettingsDir CreateDirectoryRecursive
                          (GetPNPath PNPATH_USERSETTINGS) a
  with
  | Done tr _ a' =>
      Started ([InitResourceLoader; NewAppSettings; MakeOptions] ++
               map AppCall tr ++ [LoadCache]) a'
  | Undefined tr =>
      StartupUndefined
        ([InitResourceLoader; NewAppSettings; MakeOptions] ++ map AppCall tr)
  end.

(** [App::Init] *)
Definition Init (a : App) : Startup :=
  let path := GetPNPath PNPATH_SCHEMES in
  let cpath := GetPNPath PNPATH_COMPILEDSCHEMES in
  let keypath := GetPNPath PNPATH_USERSETTINGS in
  let keypath := (keypath ++ "keymap.dat")%string in
  Started [SetPath path; SetCompiledPath cpath; SchemeManagerLoad;
           NewCommandDispatch keypath]
          (set_m_dispatch (Some (mkCommandDispatch keypath)) a).

End StartingUp.

(** [App::GetCommandDispatch]: dereferences [m_dispatch]. *)
Definition GetCommandDispatch : M CommandDispatch :=
  a <- this ;;
  defined (m_dispatch a).

(** [App::GetSettings] *)
Definition GetSettings : M AppSettings :=
  a <- this ;;
  ret (m_settings a).

(** ** The input box *)

(** IDOK of the Windows headers. *)
Definition IDOK : Z := 1.

(** A char of an array obtained from [new char[n]]: indeterminate until it
    is written. *)
Definition cell : Type := option ascii.

(** [new char[n]] *)
Definition new_char (n : Z) : list cell := repeat None (Z.to_nat n).

(** [_tcslen(p)] on the chars found from [p] on: the number of chars before
    the first null char; without one the scan leaves the array. *)
Fixpoint tcslen (p : list ascii) : option nat :=
  match p with
  | [] => None
  | c :: p' =>
      if Ascii.eqb c Ascii.zero then Some 0 else option_map S (tcslen p')
  end.

(** [strcpy(dest, src)]: copies the chars of [src] up to and with the null
    char; undefined when [src] has none or [dest] is too short. *)
Fixpoint strcpy (dest : list cell) (src : list ascii) : option (list cell) :=
  match src, dest with
  | [], _ => None
  | _ :: _, [] => None
  | c :: src', _ :: dest' =>
      if Ascii.eqb c Ascii.zero then Some (Some c :: dest')
      else option_map (cons (Some c)) (strcpy dest' src')
  end.

(** The C string held in an array of cells, when all its chars up to the
    null char were written. *)
Fixpoint cells_cstr (p : list cell) : option (list ascii) :=
  match p with
  | Some c :: p' =>
      if Ascii.eqb c Ascii.zero then Some []
      else option_map (cons c) (cells_cstr p')
  | _ => None
  end.

(** The C string found at a pointer to chars. *)
Fixpoint cstr (p : list ascii) : option (list ascii) :=
  match p with
  | [] => None
  | c :: p' =>
      if Ascii.eqb c Ascii.zero then Some []
      else option_map (cons c) (cstr p')
  end.

Section InputBox.

(** What the dialog answers: the value of DoModal, and the pointer GetInput
    gives (NULL, or the chars found there). *)
Variable DoModal : tstring -> tstring -> Z.
Variable GetInput : tstring -> tstring -> option (list ascii).

(** [App::InputBox]: NULL, or the array allocated for the copy; [None] when
    the behaviour is undefined.  The sum in the array size is a size_t. *)
Definition InputBox (title caption : tstring) : option (option (list cell)) :=
  if (DoModal title caption =? IDOK)%Z
  then
    match GetInput title caption with
    | Some input =>
        match tcslen input with
        | Some len =>
            let result := new_char (to_size_t (Z.of_nat len + 1)) in
            option_map Some (strcpy result input)
        | None => None
        end
    | None => Some None
    end
  else Some None.

End InputBox.

(** * Properties *)

(** ** The monad *)

Lemma bind_Done {A B : Type} (m : M A) (f : A -> M B) a tr x a' :
  m a = Done tr x a' ->
  bind m f a =
    match f x a' with
    | Done tr' y a'' => Done (tr ++ tr') y a''
    | Undefined tr' => Undefined (tr ++ tr')
    end.
Proof. intros H. unfold bind. rewrite H. reflexivity. Qed.

Lemma for_each_emit {A : Type} (ev : A -> Event) (l : list A) (a : App) :
  for_each (fun i => emit (ev i)) l a = Done (map ev l) tt a.
Proof.
  induction l as [|x l IH]; simpl.
  - reflexivity.
  - unfold bind at 1. simpl. rewrite IH. reflexivity.
Qed.

Lemma set_m_exts_same (a : App) : set_m_exts (m_exts a) a = a.
Proof. destruct a; reflexivity. Qed.

Lemma set_m_exts_twice (l l' : ExtensionList) (a : App) :
  set_m_exts l (set_m_exts l' a) = set_m_exts l a.
Proof. reflexivity. Qed.

(** ** Strings *)

Lemma to_size_t_minus_one : to_size_t (-1) = npos.
Proof. reflexivity. Qed.

Lemma to_size_t_small (z : Z) :
  (0 <= z < npos)%Z -> to_size_t z = z.
Proof.
  unfold to_size_t, npos. intros H. apply Z.mod_small. lia.
Qed.

Lemma before_first_None (c : ascii) (s : tstring) :
  before_first c s = None <-> occurs c s = false.
Proof.
  induction s as [|x s IH]; simpl.
  - tauto.
  - destruct (Ascii.eqb x c); simpl.
    + split; discriminate.
    + destruct (before_first c s); simpl.
      * split; [discriminate|]. intros H. apply IH in H. discriminate.
      * split; [|reflexivity]. intros _. apply IH. reflexivity.
Qed.

Lemma find_from_None (c : ascii) (s : tstring) (i : nat) :
  occurs c s = false -> find_from c s i = None.
Proof.
  revert i. induction s as [|x s IH]; simpl; intros i H.
  - reflexivity.
  - destruct (Ascii.eqb x c); simpl in H; [discriminate|]. apply IH, H.
Qed.

Lemma find_from_before_first (c : ascii) (s p : tstring) (i : nat) :
  before_first c s = Some p ->
  find_from c s i = Some (i + String.length p)%nat /\
  substring 0 (String.length p) s = p /\
  (String.length p < String.length s)%nat.
Proof.
  revert p i. induction s as [|x s IH]; simpl; intros p i H.
  - discriminate.
  - destruct (Ascii.eqb x c).
    + inversion H; subst. simpl. rewrite Nat.add_0_r.
      repeat split. lia.
    + destruct (before_first c s) as [q|] eqn:E; simpl in H; [|discriminate].
      inversion H; subst. simpl.
      destruct (IH q (S i) eq_refl) as (Hf & Hs & Hl).
      rewrite Hf, Hs. repeat split.
      * f_equal. lia.
      * lia.
Qed.

Lemma find_before_first (s p : tstring) :
  before_first ":" s = Some p ->
  (Z.of_nat (String.length s) < npos)%Z ->
  find s ":" = Z.of_nat (String.length p) /\
  substr s 0 (find s ":") = p /\
  (find s ":" =? to_size_t (-1))%Z = false.
Proof.
  intros H Hlen.
  destruct (find_from_before_first ":" s p 0 H) as (Hf & Hs & Hl).
  assert (E : find s ":" = Z.of_nat (String.length p)).
  { unfold find. rewrite Hf. simpl. apply to_size_t_small. lia. }
  rewrite E. repeat split.
  - unfold substr. rewrite Nat2Z.id. exact Hs.
  - rewrite to_size_t_minus_one. apply Z.eqb_neq. lia.
Qed.

(** ** Loading *)

Section Loading.

Variable V : tstring -> bool.

Lemma at_index_0 (path : tstring) :
  at_index path 0 =
    match path with
    | EmptyString => Some Ascii.zero
    | String c _ => Some c
    end.
Proof. destruct path; reflexivity. Qed.

Lemma LoadExtensions_body_eq (path : tstring) (a : App) :
  LoadExtensions_body V path a =
    Done (load_events V path) tt
         (set_m_exts (m_exts a ++ load_kept V path) a).
Proof.
  unfold LoadExtensions_body, load_events, load_kept.
  unfold bind at 1. rewrite at_index_0.
  unfold new_Extension, bind, emit, ret, modify, push_back.
  destruct path as [|c s]; simpl.
  - destruct (V ""); simpl.
    + reflexivity.
    + rewrite app_nil_r, set_m_exts_same. reflexivity.
  - destruct (Ascii.eqb c "#"); simpl.
    + rewrite app_nil_r, set_m_exts_same. reflexivity.
    + destruct (Ascii.eqb c "!"); simpl.
      * rewrite app_nil_r, set_m_exts_same. reflexivity.
      * destruct (V (String c s)); simpl.
        -- reflexivity.
        -- rewrite app_nil_r, set_m_exts_same. reflexivity.
Qed.

Lemma for_each_LoadExtensions_body (paths : tstring_list) (a : App) :
  for_each (LoadExtensions_body V) paths a =
    Done (flat_map (load_events V) paths) tt
         (set_m_exts (m_exts a ++ flat_map (load_kept V) paths) a).
Proof.
  revert a. induction paths as [|p paths IH]; intros a; simpl.
  - rewrite app_nil_r, set_m_exts_same. reflexivity.
  - rewrite (bind_Done _ _ _ _ _ _ (LoadExtensions_body_eq p a)).
    rewrite IH. simpl. rewrite <- app_assoc. reflexivity.
Qed.

Lemma LoadExtensions_eq (a : App) :
  LoadExtensions V a =
    if m_bCanLoadExtensions a
    then Done (flat_map (load_events V) (GetExtensions (m_settings a))) tt
           (set_m_exts
              (m_exts a ++
               flat_map (load_kept V) (GetExtensions (m_settings a))) a)
    else Done [] tt a.
Proof.
  unfold LoadExtensions. unfold bind at 1. simpl.
  destruct (m_bCanLoadExtensions a); simpl.
  - rewrite for_each_LoadExtensions_body. reflexivity.
  - reflexivity.
Qed.

Lemma constructions_app (t1 t2 : Trace) :
  constructions (t1 ++ t2) = constructions t1 ++ constructions t2.
Proof.
  induction t1 as [|e t1 IH]; simpl; [reflexivity|].
  destruct e; simpl; rewrite ?IH; reflexivity.
Qed.

Lemma log_entries_app (t1 t2 : Trace) :
  log_entries (t1 ++ t2) = log_entries t1 ++ log_entries t2.
Proof.
  induction t1 as [|e t1 IH]; simpl; [reflexivity|].
  destruct e; simpl; rewrite ?IH; reflexivity.
Qed.

Lemma constructions_load (paths : tstring_list) :
  constructions (flat_map (load_events V) paths) =
    map (fun p => mkExtension p (V p))
        (filter (fun p => negb (disabled p)) paths).
Proof.
  induction paths as [|p paths IH]; simpl; [reflexivity|].
  rewrite constructions_app, IH. unfold load_events.
  destruct (disabled p); simpl; [reflexivity|].
  destruct (V p); reflexivity.
Qed.

Lemma kept_load (paths : tstring_list) :
  flat_map (load_kept V) paths =
    filter Valid (constructions (flat_map (load_events V) paths)).
Proof.
  induction paths as [|p paths IH]; simpl; [reflexivity|].
  rewrite constructions_app, filter_app, IH.
  unfold load_kept, load_events.
  destruct (disabled p); simpl; [reflexivity|].
  destruct (V p); reflexivity.
Qed.

Lemma log_entries_load (paths : tstring_list) :
  log_entries (flat_map (load_events V) paths) =
    map (fun e => ("Failed to load extension: " ++ ext_path e)%string)
        (filter (fun e => negb (Valid e))
                (constructions (flat_map (load_events V) paths))).
Proof.
  induction paths as [|p paths IH]; simpl; [reflexivity|].
  rewrite log_entries_app, constructions_app, filter_app, map_app, IH.
  unfold load_events.
  destruct (disabled p); simpl; [reflexivity|].
  destruct (V p); reflexivity.
Qed.

End Loading.

(** ** Event sinks *)

Lemma list_remove_filter (s : IAppEventSinkPtr) (l : EventSinkList) :
  list_remove s l = filter (fun x => negb (Nat.eqb x s)) l.
Proof.
  induction l as [|x l IH]; simpl; [reflexivity|].
  destruct (Nat.eqb x s); simpl; rewrite IH; reflexivity.
Qed.

Lemma list_remove_app (s : IAppEventSinkPtr) (l1 l2 : EventSinkList) :
  list_remove s (l1 ++ l2) = list_remove s l1 ++ list_remove s l2.
Proof.
  induction l1 as [|x l1 IH]; simpl; [reflexivity|].
  destruct (Nat.eqb x s); simpl; rewrite IH; reflexivity.
Qed.

Lemma list_remove_self (s : IAppEventSinkPtr) :
  list_remove s [s] = [].
Proof. simpl. rewrite Nat.eqb_refl. reflexivity. Qed.

Lemma count_occ_list_remove (s : IAppEventSinkPtr) (l : EventSinkList) :
  count_occ Nat.eq_dec (list_remove s l) s = 0.
Proof.
  induction l as [|x l IH]; simpl; [reflexivity|].
  destruct (Nat.eqb x s) eqn:E; [exact IH|].
  simpl. destruct (Nat.eq_dec x s) as [->|_]; [|exact IH].
  rewrite Nat.eqb_refl in E. discriminate.
Qed.

Lemma count_occ_list_remove_other (s t : IAppEventSinkPtr)
      (l : EventSinkList) :
  t <> s ->
  count_occ Nat.eq_dec (list_remove s l) t = count_occ Nat.eq_dec l t.
Proof.
  intros Hts. induction l as [|x l IH]; simpl; [reflexivity|].
  destruct (Nat.eqb x s) eqn:E.
  - apply Nat.eqb_eq in E. subst x.
    destruct (Nat.eq_dec s t) as [->|_]; [contradiction|exact IH].
  - simpl. destruct (Nat.eq_dec x t); rewrite IH; reflexivity.
Qed.

Lemma invocations_OnNewDocument (s : IAppEventSinkPtr) (doc : IDocumentPtr)
      (l : EventSinkList) :
  invocations s (map (fun i => OnNewDocumentCall i doc) l) =
    count_occ Nat.eq_dec l s.
Proof.
  induction l as [|x l IH]; simpl; [reflexivity|]. rewrite IH.
  destruct (Nat.eq_dec x s) as [->|Hn].
  - rewrite Nat.eqb_refl. reflexivity.
  - apply Nat.eqb_neq in Hn. rewrite Hn. reflexivity.
Qed.

Lemma invocations_OnAppClose (s : IAppEventSinkPtr) (l : EventSinkList) :
  invocations s (map OnAppCloseCall l) = count_occ Nat.eq_dec l s.
Proof.
  induction l as [|x l IH]; simpl; [reflexivity|]. rewrite IH.
  destruct (Nat.eq_dec x s) as [->|Hn].
  - rewrite Nat.eqb_refl. reflexivity.
  - apply Nat.eqb_neq in Hn. rewrite Hn. reflexivity.
Qed.

Lemma OnNewDocument_eq (doc : IDocumentPtr) (a : App) :
  OnNewDocument doc a =
    Done (map (fun i => OnNewDocumentCall i doc) (m_sinks a)) tt a.
Proof.
  unfold OnNewDocument. unfold bind, this.
  rewrite (for_each_emit (fun i => OnNewDocumentCall i doc)). reflexivity.
Qed.

(** C1, as the code has it.  RemoveEventSink erases every registration of
    the sink it is given and keeps the other sinks in their order.  After
    two AddEventSink(S) and one RemoveEventSink(S) no registration of S is
    left, so a later notification does not reach S at all, while every
    other sink is registered as often as before. *)
Theorem RemoveEventSink_removes_every_registration
        (S : IAppEventSinkPtr) (doc : IDocumentPtr) (a : App) :
  RemoveEventSink S a =
    Done [] tt
      (set_m_sinks (filter (fun x => negb (Nat.eqb x S)) (m_sinks a)) a) /\
  exists a',
    (AddEventSink S ;; AddEventSink S ;; RemoveEventSink S) a = Done [] tt a' /\
    m_sinks a' = filter (fun x => negb (Nat.eqb x S)) (m_sinks a) /\
    count_occ Nat.eq_dec (m_sinks a') S = 0 /\
    invocations S (trace_of (OnNewDocument doc a')) = 0 /\
    (forall T, T <> S ->
       count_occ Nat.eq_dec (m_sinks a') T =
       count_occ Nat.eq_dec (m_sinks a) T).
Proof.
  split.
  - unfold RemoveEventSink, modify. rewrite list_remove_filter. reflexivity.
  - eexists. split; [reflexivity|]. simpl. unfold push_back.
    rewrite !list_remove_app, !list_remove_self, !app_nil_r.
    repeat split.
    + apply list_remove_filter.
    + apply count_occ_list_remove.
    + rewrite OnNewDocument_eq. simpl.
      rewrite invocations_OnNewDocument.
      apply count_occ_list_remove.
    + intros T HT. apply count_occ_list_remove_other, HT.
Qed.

(** C1, as the claim has it, fails: with no sink registered before, two
    AddEventSink(7) and one RemoveEventSink(7) leave no registration of
    sink 7, not one, and a notification then calls it zero times. *)
Lemma RemoveEventSink_first_only_counterexample :
  exists a',
    (AddEventSink 7 ;; AddEventSink 7 ;; RemoveEventSink 7)
      (App_initial (mkAppSettings [])) = Done [] tt a' /\
    m_sinks a' = [] /\
    count_occ Nat.eq_dec (m_sinks a') 7 <> 1 /\
    invocations 7 (trace_of (OnNewDocument 1 a')) <> 1.
Proof.
  eexists. split; [reflexivity|]. simpl.
  repeat split; discriminate.
Qed.

(** ** Commands *)

(** C2.  A command string without ':' (the empty string included) makes
    RunExtensionCommand return at once: nothing is dispatched, nothing is
    reported and the state is the one before. *)
Theorem RunExtensionCommand_no_colon (command : tstring) (a : App) :
  occurs ":" command = false ->
  RunExtensionCommand command a = Done [] tt a.
Proof.
  intros H. unfold RunExtensionCommand, find.
  rewrite (find_from_None _ _ 0 H), to_size_t_minus_one, Z.eqb_refl.
  reflexivity.
Qed.

Lemma RunExtensionCommand_no_colon_witness :
  RunExtensionCommand "" (App_initial (mkAppSettings [])) =
    Done [] tt (App_initial (mkAppSettings [])) /\
  RunExtensionCommand "noColonHere" (App_initial (mkAppSettings [])) =
    Done [] tt (App_initial (mkAppSettings [])).
Proof.
  split.
  - apply (RunExtensionCommand_no_colon ""). reflexivity.
  - apply (RunExtensionCommand_no_colon "noColonHere"). reflexivity.
Defined.

(** C3.  When the part of the command before its first ':' is "ext",
    RunExtensionCommand reports the unexpected condition "Not Yet
    Implemented" and runs no script. *)
Theorem RunExtensionCommand_ext (command : tstring) (a : App) :
  before_first ":" command = Some "ext" ->
  RunExtensionCommand command a =
    Done [UNEXPECTED "Not Yet Implemented"] tt a /\
  scripts_run (trace_of (RunExtensionCommand command a)) = [].
Proof.
  intros H.
  destruct (find_from_before_first ":" command "ext" 0 H) as (Hf & Hs & _).
  assert (E : RunExtensionCommand command a =
              Done [UNEXPECTED "Not Yet Implemented"] tt a).
  { unfold RunExtensionCommand, find, substr. cbv zeta. rewrite Hf.
    change (to_size_t (Z.of_nat (0 + String.length "ext"))) with 3%Z.
    change (3 =? to_size_t (-1))%Z with false.
    change (Z.to_nat 3) with (String.length "ext").
    rewrite Hs. reflexivity. }
  rewrite E. split; reflexivity.
Qed.

Lemma RunExtensionCommand_ext_witness :
  RunExtensionCommand "ext:anything" (App_initial (mkAppSettings [])) =
    Done [UNEXPECTED "Not Yet Implemented"] tt
         (App_initial (mkAppSettings [])) /\
  scripts_run
    (trace_of (RunExtensionCommand "ext:anything"
                 (App_initial (mkAppSettings [])))) = [].
Proof.
  apply (RunExtensionCommand_ext "ext:anything"). reflexivity.
Defined.

(** C4.  When the command contains a ':' and the part before the first
    one is not "ext", RunExtensionCommand builds one Script from the empty
    group and the whole command string and runs it; nothing else happens.
    The length bound is the one every string of the program meets: it is
    shorter than npos. *)
Theorem RunExtensionCommand_script (command runner_id : tstring) (a : App) :
  before_first ":" command = Some runner_id ->
  runner_id <> "ext" ->
  (Z.of_nat (String.length command) < npos)%Z ->
  RunExtensionCommand command a = Done [ScriptRun "" command] tt a /\
  scripts_run (trace_of (RunExtensionCommand command a)) = [("", command)].
Proof.
  intros H Hne Hlen.
  destruct (find_before_first command runner_id H Hlen) as (_ & Hs & Hn).
  assert (E : RunExtensionCommand command a =
              Done [ScriptRun "" command] tt a).
  { unfold RunExtensionCommand. rewrite Hn, Hs.
    apply String.eqb_neq in Hne. rewrite Hne. reflexivity. }
  rewrite E. split; reflexivity.
Qed.

Lemma RunExtensionCommand_script_witness :
  RunExtensionCommand "foo:bar" (App_initial (mkAppSettings [])) =
    Done [ScriptRun "" "foo:bar"] tt (App_initial (mkAppSettings [])) /\
  scripts_run
    (trace_of (RunExtensionCommand "foo:bar"
                 (App_initial (mkAppSettings [])))) = [("", "foo:bar")].
Proof.
  apply (RunExtensionCommand_script "foo:bar" "foo").
  - reflexivity.
  - discriminate.
  - vm_compute. reflexivity.
Defined.

(** ** Loading the extensions *)

Section LoadExtensionsProperties.

Variable V : tstring -> bool.

(** C5.  Whatever the extension list, LoadExtensions builds no Extension
    for an entry that starts with '#' or '!'; the entries it builds one
    for are, in the order of the list, those that do not start so (none
    when extensions are not permitted); and the valid ones among the
    Extensions built are appended to [m_exts] in that same order. *)
Theorem LoadExtensions_skips_disabled_keeps_order (a : App) :
  exists tr a',
    LoadExtensions V a = Done tr tt a' /\
    Forall (fun e => disabled (ext_path e) = false) (constructions tr) /\
    constructions tr =
      (if m_bCanLoadExtensions a
       then map (fun p => mkExtension p (V p))
                (filter (fun p => negb (disabled p))
                        (GetExtensions (m_settings a)))
       else []) /\
    m_exts a' = m_exts a ++ filter Valid (constructions tr).
Proof.
  rewrite LoadExtensions_eq.
  destruct (m_bCanLoadExtensions a).
  - do 2 eexists. split; [reflexivity|].
    rewrite constructions_load. split; [|split].
    + apply Forall_forall. intros e He.
      apply in_map_iff in He. destruct He as (p & <- & Hp).
      apply filter_In in Hp. destruct Hp as [_ Hp]. simpl.
      apply negb_true_iff, Hp.
    + reflexivity.
    + simpl. rewrite kept_load, constructions_load. reflexivity.
  - exists [], a. simpl. rewrite app_nil_r. repeat split. constructor.
Qed.

Lemma filter_singleton_split {A : Type} (f : A -> bool) (l : list A) :
  List.length (filter f l) = 1 ->
  exists l1 x l2,
    l = l1 ++ x :: l2 /\ f x = true /\
    filter f l1 = [] /\ filter f l2 = [].
Proof.
  induction l as [|y l IH]; simpl; intros H; [discriminate|].
  destruct (f y) eqn:E.
  - exists [], y, l. simpl. repeat split; [exact E|].
    simpl in H. destruct (filter f l); [reflexivity|discriminate].
  - destruct (IH H) as (l1 & x & l2 & -> & Hx & H1 & H2).
    exists (y :: l1), x, l2. simpl. rewrite E. repeat split; assumption.
Qed.

Lemma kept_load_paths (paths : tstring_list) :
  flat_map (load_kept V) paths =
    map (fun p => mkExtension p true)
        (filter (fun p => negb (disabled p) && V p) paths).
Proof.
  induction paths as [|p paths IH]; simpl; [reflexivity|].
  rewrite IH. unfold load_kept.
  destruct (disabled p); simpl; [reflexivity|].
  destruct (V p); reflexivity.
Qed.

Lemma log_entries_load_paths (paths : tstring_list) :
  log_entries (flat_map (load_events V) paths) =
    map (fun p => ("Failed to load extension: " ++ p)%string)
        (filter (fun p => negb (disabled p) && negb (V p)) paths).
Proof.
  induction paths as [|p paths IH]; simpl; [reflexivity|].
  rewrite log_entries_app, IH. unfold load_events.
  destruct (disabled p); simpl; [reflexivity|].
  destruct (V p); reflexivity.
Qed.

Lemma constructions_all_valid (paths : tstring_list) :
  filter (fun p => negb (disabled p) && negb (V p)) paths = [] ->
  map (fun p => mkExtension p (V p))
      (filter (fun p => negb (disabled p)) paths) =
  map (fun p => mkExtension p true)
      (filter (fun p => negb (disabled p)) paths).
Proof.
  induction paths as [|p paths IH]; simpl; intros H; [reflexivity|].
  destruct (disabled p); simpl in *; [apply IH, H|].
  destruct (V p); simpl in *; [|discriminate].
  rewrite (IH H). reflexivity.
Qed.

(** C6, with the gate.  Let extensions be permitted, and let the configured
    list hold exactly one entry that is not disabled and gives an invalid
    Extension, and N entries that are not disabled and give valid ones.
    Then LoadExtensions appends exactly those N valid Extensions to
    [m_exts], in the order of the list; it writes exactly one log entry,
    which names the failing path; and it builds an Extension for every
    entry that is not disabled, before and after the failing one. *)
Theorem LoadExtensions_one_invalid_among_valid (a : App) (N : nat) :
  m_bCanLoadExtensions a = true ->
  List.length (filter (fun p => negb (disabled p) && negb (V p))
                      (GetExtensions (m_settings a))) = 1 ->
  List.length (filter (fun p => negb (disabled p) && V p)
                      (GetExtensions (m_settings a))) = N ->
  exists tr a' kept before bad after,
    GetExtensions (m_settings a) = before ++ bad :: after /\
    disabled bad = false /\ V bad = false /\
    LoadExtensions V a = Done tr tt a' /\
    m_exts a' = m_exts a ++ kept /\
    kept = map (fun p => mkExtension p true)
               (filter (fun p => negb (disabled p) && V p)
                       (GetExtensions (m_settings a))) /\
    List.length kept = N /\
    log_entries tr = [("Failed to load extension: " ++ bad)%string] /\
    constructions tr =
      map (fun p => mkExtension p true)
          (filter (fun p => negb (disabled p)) before) ++
      mkExtension bad false ::
      map (fun p => mkExtension p true)
          (filter (fun p => negb (disabled p)) after).
Proof.
  intros Hflag Hbad Hgood.
  destruct (filter_singleton_split _ _ Hbad)
    as (before & bad & after & Hsplit & Hb & H1 & H2).
  apply andb_true_iff in Hb. destruct Hb as [Hen Hinv].
  apply negb_true_iff in Hen. apply negb_true_iff in Hinv.
  rewrite LoadExtensions_eq, Hflag.
  do 2 eexists.
  exists (map (fun p => mkExtension p true)
              (filter (fun p => negb (disabled p) && V p)
                      (GetExtensions (m_settings a)))),
    before, bad, after.
  split; [exact Hsplit|]. split; [exact Hen|]. split; [exact Hinv|].
  split; [reflexivity|]. simpl.
  split; [f_equal; apply kept_load_paths|].
  split; [reflexivity|].
  split; [rewrite length_map; exact Hgood|].
  split.
  - rewrite log_entries_load_paths, Hsplit, filter_app. simpl.
    rewrite H1, H2, Hen, Hinv. reflexivity.
  - rewrite constructions_load, Hsplit, filter_app. simpl.
    rewrite Hen. simpl. rewrite map_app. simpl.
    rewrite (constructions_all_valid before H1).
    rewrite (constructions_all_valid after H2), Hinv. reflexivity.
Qed.

End LoadExtensionsProperties.

Lemma LoadExtensions_one_invalid_among_valid_witness :
  exists tr a' kept before bad after,
    ["a.dll"; "#off.dll"; "bad.dll"; "!no.dll"; "c.dll"] =
      before ++ bad :: after /\
    disabled bad = false /\
    negb (String.eqb bad "bad.dll") = false /\
    LoadExtensions (fun p => negb (String.eqb p "bad.dll"))
      (App_initial
         (mkAppSettings ["a.dll"; "#off.dll"; "bad.dll"; "!no.dll"; "c.dll"]))
      = Done tr tt a' /\
    m_exts a' = [] ++ kept /\
    kept = [mkExtension "a.dll" true; mkExtension "c.dll" true] /\
    List.length kept = 2 /\
    log_entries tr = [("Failed to load extension: " ++ bad)%string] /\
    constructions tr =
      map (fun p => mkExtension p true)
          (filter (fun p => negb (disabled p)) before) ++
      mkExtension bad false ::
      map (fun p => mkExtension p true)
          (filter (fun p => negb (disabled p)) after).
Proof.
  apply (LoadExtensions_one_invalid_among_valid
           (fun p => negb (String.eqb p "bad.dll"))
           (App_initial
              (mkAppSettings
                 ["a.dll"; "#off.dll"; "bad.dll"; "!no.dll"; "c.dll"]))
           2).
  - reflexivity.
  - reflexivity.
  - reflexivity.
Defined.

(** C6, as the claim has it, fails when extensions are not permitted.  The
    list below holds one entry that gives an invalid Extension and one that
    gives a valid one; with [m_bCanLoadExtensions] false LoadExtensions
    builds nothing, owns no extension afterwards and writes no log entry. *)
Lemma LoadExtensions_one_invalid_safe_mode_counterexample :
  List.length
    (filter (fun p => negb (disabled p) &&
                      negb (negb (String.eqb p "bad.dll")))
            ["a.dll"; "bad.dll"]) = 1 /\
  List.length
    (filter (fun p => negb (disabled p) && negb (String.eqb p "bad.dll"))
            ["a.dll"; "bad.dll"]) = 1 /\
  exists tr a',
    LoadExtensions (fun p => negb (String.eqb p "bad.dll"))
      (set_m_bCanLoadExtensions false
         (App_initial (mkAppSettings ["a.dll"; "bad.dll"]))) =
      Done tr tt a' /\
    List.length (m_exts a') <> 1 /\
    List.length (log_entries tr) <> 1 /\
    constructions tr = [].
Proof.
  split; [reflexivity|]. split; [reflexivity|].
  do 2 eexists. split; [reflexivity|].
  simpl. repeat split; discriminate.
Qed.

Section SafeMode.

Variable V : tstring -> bool.

(** C7.  With [m_bCanLoadExtensions] false, LoadExtensions returns before
    it looks at the extension list: no Extension is built, nothing is
    logged, and [m_exts] with the rest of the state is as before.  The
    flag is false after SetCanLoadExtensions(false). *)
Theorem LoadExtensions_not_permitted (a : App) :
  m_bCanLoadExtensions a = false ->
  LoadExtensions V a = Done [] tt a /\
  (forall a0 : App,
     (SetCanLoadExtensions false ;; LoadExtensions V) a0 =
       Done [] tt (set_m_bCanLoadExtensions false a0) /\
     m_exts (set_m_bCanLoadExtensions false a0) = m_exts a0).
Proof.
  intros H. split.
  - rewrite LoadExtensions_eq, H. reflexivity.
  - intros a0. split; [|reflexivity].
    unfold bind, SetCanLoadExtensions, modify.
    rewrite LoadExtensions_eq. reflexivity.
Qed.

End SafeMode.

Lemma LoadExtensions_not_permitted_witness :
  LoadExtensions (fun _ => true)
    (set_m_bCanLoadExtensions false
       (App_initial (mkAppSettings ["a.dll"; "b.dll"]))) =
    Done [] tt
      (set_m_bCanLoadExtensions false
         (App_initial (mkAppSettings ["a.dll"; "b.dll"]))).
Proof.
  apply (LoadExtensions_not_permitted (fun _ => true)
           (set_m_bCanLoadExtensions false
              (App_initial (mkAppSettings ["a.dll"; "b.dll"])))).
  reflexivity.
Defined.

(** ** Clearing the user data *)

Section ClearUserDataProperties.

Variable DeleteDirectory : tstring -> bool -> bool.
Variable CreateDirectoryRecursive : tstring -> bool.
Variable PNPATH_USERSETTINGS : tstring.
Variable PNSK_INTERFACE : tstring.

(** C8.  When DeleteDirectory fails on the user settings directory,
    ClearUserData reports the failure and returns false; it neither
    clears any part of the options nor creates a directory.  When the
    deletion succeeds it clears PNSK_INTERFACE in the options, then
    creates the user settings directory again (reporting if that fails),
    and returns true. *)
Theorem ClearUserData_result (a : App) :
  (DeleteDirectory PNPATH_USERSETTINGS true = false ->
   ClearUserData DeleteDirectory CreateDirectoryRecursive
                 PNPATH_USERSETTINGS PNSK_INTERFACE a =
     Done [DeleteDirectoryCall PNPATH_USERSETTINGS true;
           UNEXPECTED "Failed to delete user settings directory!"]
          false a) /\
  (DeleteDirectory PNPATH_USERSETTINGS true = true ->
   ClearUserData DeleteDirectory CreateDirectoryRecursive
                 PNPATH_USERSETTINGS PNSK_INTERFACE a =
     Done ([DeleteDirectoryCall PNPATH_USERSETTINGS true;
            OptionsClear PNSK_INTERFACE;
            CreateDirectoryRecursiveCall PNPATH_USERSETTINGS] ++
           (if CreateDirectoryRecursive PNPATH_USERSETTINGS then []
            else [UNEXPECTED "Could not create user settings folder"]))
          true a).
Proof.
  split; intros H;
    unfold ClearUserData, ensureUserSettingsDir, bind, emit, ret;
    rewrite H; simpl.
  - reflexivity.
  - destruct (CreateDirectoryRecursive PNPATH_USERSETTINGS); reflexivity.
Qed.

End ClearUserDataProperties.

Lemma ClearUserData_result_witness :
  ClearUserData (fun _ _ => false) (fun _ => true) "settings" "Interface"
                (App_initial (mkAppSettings [])) =
    Done [DeleteDirectoryCall "settings" true;
          UNEXPECTED "Failed to delete user settings directory!"]
         false (App_initial (mkAppSettings [])) /\
  ClearUserData (fun _ _ => true) (fun _ => true) "settings" "Interface"
                (App_initial (mkAppSettings [])) =
    Done [DeleteDirectoryCall "settings" true;
          OptionsClear "Interface";
          CreateDirectoryRecursiveCall "settings"]
         true (App_initial (mkAppSettings [])).
Proof.
  split.
  - apply (proj1 (ClearUserData_result (fun _ _ => false) (fun _ => true)
                    "settings" "Interface"
                    (App_initial (mkAppSettings [])))).
    reflexivity.
  - apply (proj2 (ClearUserData_result (fun _ _ => true) (fun _ => true)
                    "settings" "Interface"
                    (App_initial (mkAppSettings [])))).
    reflexivity.
Defined.

(** ** Shutting down *)

Lemma unloadExtensions_eq (a : App) :
  unloadExtensions a =
    Done (map OnAppCloseCall (m_sinks a) ++ map UnloadCall (m_exts a)) tt
         (set_m_exts [] a).
Proof.
  unfold unloadExtensions. unfold bind, this, modify.
  rewrite !for_each_emit. simpl. rewrite app_nil_r. reflexivity.
Qed.

Lemma unloads_app (t1 t2 : Trace) :
  unloads (t1 ++ t2) = unloads t1 ++ unloads t2.
Proof.
  induction t1 as [|e t1 IH]; simpl; [reflexivity|].
  destruct e; simpl; rewrite ?IH; reflexivity.
Qed.

Lemma unloads_OnAppClose (l : EventSinkList) :
  unloads (map OnAppCloseCall l) = [].
Proof. induction l; simpl; auto. Qed.

Lemma unloads_Unload (l : ExtensionList) :
  unloads (map UnloadCall l) = l.
Proof. induction l; simpl; congruence. Qed.

Lemma deinit_eq (b : App) :
  deinit b =
    Done (map OnAppCloseCall (m_sinks b) ++
          map UnloadCall (m_exts b) ++
          [DeleteSettings; DeletionManagerDeleteAll; OptionsFactoryRelease] ++
          match m_dispatch b with
          | Some _ => [DeleteDispatch]
          | None => []
          end)
         tt (set_g_Context_options None (set_m_exts [] b)).
Proof.
  unfold deinit.
  rewrite (bind_Done _ _ _ _ _ _ (unloadExtensions_eq b)).
  unfold bind, emit, modify, this, ret. simpl.
  destruct (m_dispatch b); simpl; rewrite <- app_assoc; reflexivity.
Qed.

(** C9, as the code has it.  deinit calls, one after the other: OnAppClose
    on every sink in the order of registration; Unload on every owned
    extension in the order of [m_exts], which is then cleared; the release
    of the settings; the sweep of the deletion manager; the release of the
    options object, whose global pointer becomes NULL; and last the release
    of the command dispatcher, when Init has made one: with [m_dispatch]
    still NULL nothing is released in that step.  Since LoadExtensions
    appends at the end of [m_exts], the Unload calls come in the order the
    extensions were loaded. *)
Theorem deinit_order (V : tstring -> bool) (a : App) :
  deinit a =
    Done (map OnAppCloseCall (m_sinks a) ++
          map UnloadCall (m_exts a) ++
          [DeleteSettings; DeletionManagerDeleteAll; OptionsFactoryRelease] ++
          match m_dispatch a with
          | Some _ => [DeleteDispatch]
          | None => []
          end)
         tt (set_g_Context_options None (set_m_exts [] a)) /\
  (forall GetPNPath : PNPath -> tstring,
   exists tr0 a1,
     Init GetPNPath a = Started tr0 a1 /\
     deinit a1 =
       Done (map OnAppCloseCall (m_sinks a) ++
             map UnloadCall (m_exts a) ++
             [DeleteSettings; DeletionManagerDeleteAll;
              OptionsFactoryRelease; DeleteDispatch])
            tt (set_g_Context_options None (set_m_exts [] a1))) /\
  exists tr a',
    LoadExtensions V a = Done tr tt a' /\
    unloads (trace_of (deinit a')) =
      m_exts a ++ filter Valid (constructions tr).
Proof.
  split; [apply deinit_eq|]. split.
  { intros GetPNPath. do 2 eexists. split; [reflexivity|].
    rewrite deinit_eq. reflexivity. }
  rewrite LoadExtensions_eq.
  destruct (m_bCanLoadExtensions a).
  - do 2 eexists. split; [reflexivity|].
    rewrite deinit_eq. simpl.
    rewrite !unloads_app, unloads_OnAppClose, unloads_Unload.
    rewrite kept_load.
    destruct (m_dispatch a); simpl; rewrite app_nil_r; reflexivity.
  - exists [], a. split; [reflexivity|].
    rewrite deinit_eq. simpl.
    rewrite !unloads_app, unloads_OnAppClose, unloads_Unload.
    destruct (m_dispatch a); simpl; rewrite app_nil_r; reflexivity.
Qed.

(** C9, as the claim has it, fails for an App that was constructed and
    never initialised: its [m_dispatch] is NULL, and deinit ends with the
    release of the options object; no dispatcher is released. *)
Lemma deinit_without_dispatch_counterexample :
  (exists tr,
     App_App (mkAppSettings []) (fun _ => "settings/") (fun _ => true) =
       Started tr (App_initial (mkAppSettings []))) /\
  deinit (App_initial (mkAppSettings [])) =
    Done [DeleteSettings; DeletionManagerDeleteAll; OptionsFactoryRelease]
         tt (set_g_Context_options None (App_initial (mkAppSettings []))) /\
  ~ In DeleteDispatch (trace_of (deinit (App_initial (mkAppSettings [])))).
Proof.
  split; [eexists; reflexivity|].
  split; [reflexivity|].
  simpl. intros [H|[H|[H|H]]]; try discriminate H. exact H.
Qed.

(** ** The first character of an entry *)

Section FirstCharacter.

Variable V : tstring -> bool.

(** C10.  The loop body of LoadExtensions reads [path[0]] of every entry
    it is given, with no test for emptiness before, and that character
    alone decides whether an Extension is built.  For a non-empty entry
    index 0 is below the length and the read gives its first character.
    For the empty entry the read gives the null character, which is
    neither '#' nor '!': the entry is not disabled and an Extension is
    built for it.  No run of LoadExtensions is undefined. *)
Theorem LoadExtensions_reads_index_0 (a : App) :
  (forall path a0,
     exists c,
       at_index path 0 = Some c /\
       constructions (trace_of (LoadExtensions_body V path a0)) =
         (if Ascii.eqb c "#" || Ascii.eqb c "!" then []
          else [mkExtension path (V path)])) /\
  (forall path,
     path <> "" ->
     (0 < String.length path)%nat /\ at_index path 0 = get 0 path) /\
  (at_index "" 0 = Some Ascii.zero /\ disabled "" = false) /\
  (exists tr a', LoadExtensions V a = Done tr tt a') /\
  (m_bCanLoadExtensions a = true ->
   In "" (GetExtensions (m_settings a)) ->
   In (mkExtension "" (V ""))
      (constructions (trace_of (LoadExtensions V a)))).
Proof.
  split; [|split; [|split; [|split]]].
  - intros path a0. rewrite LoadExtensions_body_eq, at_index_0. simpl.
    unfold load_events.
    destruct path as [|c s]; simpl.
    + exists Ascii.zero. split; [reflexivity|]. destruct (V ""); reflexivity.
    + exists c. split; [reflexivity|].
      destruct (Ascii.eqb c "#" || Ascii.eqb c "!"); [reflexivity|].
      destruct (V (String c s)); reflexivity.
  - intros path Hne. destruct path as [|c s]; [contradiction|].
    simpl. split; [lia|reflexivity].
  - split; reflexivity.
  - rewrite LoadExtensions_eq.
    destruct (m_bCanLoadExtensions a); do 2 eexists; reflexivity.
  - intros Hflag Hin. rewrite LoadExtensions_eq, Hflag. simpl.
    rewrite constructions_load.
    apply in_map_iff. exists "". split; [reflexivity|].
    apply filter_In. split; [exact Hin|reflexivity].
Qed.

End FirstCharacter.

Lemma LoadExtensions_reads_index_0_witness :
  In (mkExtension "" true)
     (constructions
        (trace_of
           (LoadExtensions (fun _ => true)
              (App_initial (mkAppSettings ["a.dll"; ""; "#b.dll"]))))) /\
  (0 < String.length "a.dll")%nat /\
  at_index "a.dll" 0 = get 0 "a.dll".
Proof.
  destruct (LoadExtensions_reads_index_0 (fun _ => true)
              (App_initial (mkAppSettings ["a.dll"; ""; "#b.dll"])))
    as (_ & Hin_bounds & _ & _ & Hempty).
  split.
  - apply Hempty.
    + reflexivity.
    + simpl. right. left. reflexivity.
  - apply (Hin_bounds "a.dll"). discriminate.
Defined.


(** * Further properties of the code *)

(** ** Helper facts *)

Lemma list_remove_notin (s : IAppEventSinkPtr) (l : EventSinkList) :
  ~ In s l -> list_remove s l = l.
Proof.
  induction l as [|x l IH]; simpl; intros H; [reflexivity|].
  destruct (Nat.eqb x s) eqn:E.
  - apply Nat.eqb_eq in E. exfalso. apply H. left. exact E.
  - f_equal. apply IH. intros Hin. apply H. right. exact Hin.
Qed.

Lemma list_remove_not_In (s : IAppEventSinkPtr) (l : EventSinkList) :
  ~ In s (list_remove s l).
Proof.
  rewrite list_remove_filter. intros H. apply filter_In in H.
  destruct H as [_ H]. rewrite Nat.eqb_refl in H. discriminate.
Qed.

Lemma set_m_sinks_same (a : App) : set_m_sinks (m_sinks a) a = a.
Proof. destruct a; reflexivity. Qed.

Lemma invocations_app (s : IAppEventSinkPtr) (t1 t2 : Trace) :
  invocations s (t1 ++ t2) = invocations s t1 + invocations s t2.
Proof.
  induction t1 as [|e t1 IH]; simpl; [reflexivity|].
  destruct e; simpl; rewrite ?IH; try reflexivity; lia.
Qed.

Lemma invocations_Unload (s : IAppEventSinkPtr) (l : ExtensionList) :
  invocations s (map UnloadCall l) = 0.
Proof. induction l; simpl; auto. Qed.

Lemma filter_partition_length {A : Type} (f : A -> bool) (l : list A) :
  List.length l =
    List.length (filter f l) + List.length (filter (fun x => negb (f x)) l).
Proof.
  induction l as [|x l IH]; simpl; [reflexivity|].
  destruct (f x); simpl; lia.
Qed.

(** ** Event sinks *)

(** X1.  Registering a sink that is not registered yet and removing it again
    gives back the state there was: the sink list, and all the rest, are as
    before, and nothing was called. *)
Theorem AddEventSink_RemoveEventSink_restores
        (S : IAppEventSinkPtr) (a : App) :
  ~ In S (m_sinks a) ->
  (AddEventSink S ;; RemoveEventSink S) a = Done [] tt a.
Proof.
  intros H. unfold bind, AddEventSink, RemoveEventSink, modify, push_back.
  simpl. rewrite list_remove_app, list_remove_self, app_nil_r.
  rewrite (list_remove_notin S (m_sinks a) H).
  destruct a; reflexivity.
Qed.

Lemma AddEventSink_RemoveEventSink_restores_witness :
  (AddEventSink 5 ;; RemoveEventSink 5)
    (set_m_sinks [3; 4] (App_initial (mkAppSettings []))) =
  Done [] tt (set_m_sinks [3; 4] (App_initial (mkAppSettings []))).
Proof.
  apply (AddEventSink_RemoveEventSink_restores 5
           (set_m_sinks [3; 4] (App_initial (mkAppSettings [])))).
  simpl. intros [H|[H|H]]; [discriminate H|discriminate H|exact H].
Defined.

(** X2.  Removing a sink that is not registered changes nothing and calls
    nothing. *)
Theorem RemoveEventSink_absent (S : IAppEventSinkPtr) (a : App) :
  ~ In S (m_sinks a) ->
  RemoveEventSink S a = Done [] tt a.
Proof.
  intros H. unfold RemoveEventSink, modify.
  rewrite (list_remove_notin S (m_sinks a) H), set_m_sinks_same.
  reflexivity.
Qed.

Lemma RemoveEventSink_absent_witness :
  RemoveEventSink 9 (set_m_sinks [3; 4] (App_initial (mkAppSettings []))) =
  Done [] tt (set_m_sinks [3; 4] (App_initial (mkAppSettings []))).
Proof.
  apply (RemoveEventSink_absent 9
           (set_m_sinks [3; 4] (App_initial (mkAppSettings [])))).
  simpl. intros [H|[H|H]]; [discriminate H|discriminate H|exact H].
Defined.

(** X3.  After RemoveEventSink(S) the sink S is not in the list, however
    often it was registered, and a second RemoveEventSink(S) changes
    nothing more. *)
Theorem RemoveEventSink_idempotent (S : IAppEventSinkPtr) (a : App) :
  exists a',
    RemoveEventSink S a = Done [] tt a' /\
    ~ In S (m_sinks a') /\
    (RemoveEventSink S ;; RemoveEventSink S) a = Done [] tt a'.
Proof.
  eexists. split; [reflexivity|]. split.
  - simpl. apply list_remove_not_In.
  - unfold bind, RemoveEventSink, modify. simpl.
    rewrite (list_remove_notin S _ (list_remove_not_In S (m_sinks a))).
    reflexivity.
Qed.

(** X4.  AddEventSink does not look for duplicates: it changes the sink
    list alone, putting the sink at its end.  A notification after it calls
    the sinks called before, in the same order, and then the new
    registration, so the sink receives one call more than before. *)
Theorem AddEventSink_notified_last
        (S : IAppEventSinkPtr) (doc : IDocumentPtr) (a : App) :
  AddEventSink S a = Done [] tt (set_m_sinks (m_sinks a ++ [S]) a) /\
  trace_of (OnNewDocument doc (set_m_sinks (m_sinks a ++ [S]) a)) =
    trace_of (OnNewDocument doc a) ++ [OnNewDocumentCall S doc] /\
  invocations S
    (trace_of (OnNewDocument doc (set_m_sinks (m_sinks a ++ [S]) a))) =
    1 + invocations S (trace_of (OnNewDocument doc a)).
Proof.
  split; [reflexivity|].
  rewrite !OnNewDocument_eq. simpl. rewrite map_app. simpl.
  split; [reflexivity|].
  rewrite invocations_app. simpl. rewrite Nat.eqb_refl. lia.
Qed.

(** X5.  A notification reaches every sink once for each of its
    registrations: OnNewDocument calls OnNewDocument on the sinks in the
    order of the list, each with the document given, and leaves the state
    as it is; unloadExtensions calls OnAppClose on a sink as often as it is
    registered. *)
Theorem notification_once_per_registration
        (S : IAppEventSinkPtr) (doc : IDocumentPtr) (a : App) :
  OnNewDocument doc a =
    Done (map (fun i => OnNewDocumentCall i doc) (m_sinks a)) tt a /\
  invocations S (trace_of (OnNewDocument doc a)) =
    count_occ Nat.eq_dec (m_sinks a) S /\
  invocations S (trace_of (unloadExtensions a)) =
    count_occ Nat.eq_dec (m_sinks a) S.
Proof.
  rewrite OnNewDocument_eq, unloadExtensions_eq. simpl.
  split; [reflexivity|]. split.
  - apply invocations_OnNewDocument.
  - rewrite invocations_app, invocations_OnAppClose, invocations_Unload.
    lia.
Qed.

(** ** Commands *)

(** X6.  Whatever string it is given, RunExtensionCommand returns, leaves
    the state as it was, and makes at most one call: none, the report "Not
    Yet Implemented", or the run of one Script named by the whole
    command. *)
Theorem RunExtensionCommand_frame (command : tstring) (a : App) :
  exists tr,
    RunExtensionCommand command a = Done tr tt a /\
    (tr = [] \/
     tr = [UNEXPECTED "Not Yet Implemented"] \/
     tr = [ScriptRun "" command]).
Proof.
  unfold RunExtensionCommand.
  destruct (find command ":" =? to_size_t (-1))%Z.
  - exists []. split; [reflexivity|]. left. reflexivity.
  - destruct (String.eqb (substr command 0 (find command ":")) "ext").
    + eexists. split; [reflexivity|]. right. left. reflexivity.
    + eexists. split; [reflexivity|]. right. right. reflexivity.
Qed.

(** ** Loading, once more *)

Section LoadExtensionsFurther.

Variable V : tstring -> bool.

Lemma load_events_kinds (paths : tstring_list) :
  Forall (fun e => match e with
                   | NewExtension _ | LOG _ => True
                   | _ => False
                   end)
         (flat_map (load_events V) paths).
Proof.
  induction paths as [|p paths IH]; simpl; [constructor|].
  apply Forall_app. split; [|exact IH].
  unfold load_events.
  destruct (disabled p); [constructor|].
  destruct (V p); repeat constructor.
Qed.

(** X7.  LoadExtensions changes [m_exts] alone, and only by appending: the
    extensions owned before stay where they were.  It builds Extensions
    and writes log entries and calls nothing else; every Extension built is
    either appended (valid) or logged with its path (invalid), so the
    number built is the number appended plus the number of log entries. *)
Theorem LoadExtensions_accounting (a : App) :
  exists tr kept,
    LoadExtensions V a = Done tr tt (set_m_exts (m_exts a ++ kept) a) /\
    kept = filter Valid (constructions tr) /\
    log_entries tr =
      map (fun e => ("Failed to load extension: " ++ ext_path e)%string)
          (filter (fun e => negb (Valid e)) (constructions tr)) /\
    List.length (constructions tr) =
      List.length kept + List.length (log_entries tr) /\
    Forall (fun e => match e with
                     | NewExtension _ | LOG _ => True
                     | _ => False
                     end) tr.
Proof.
  rewrite LoadExtensions_eq.
  destruct (m_bCanLoadExtensions a).
  - do 2 eexists. split; [reflexivity|].
    split; [apply kept_load|].
    split; [apply log_entries_load|].
    split.
    + rewrite log_entries_load, length_map, kept_load.
      apply filter_partition_length.
    + apply load_events_kinds.
  - exists [], []. rewrite app_nil_r, set_m_exts_same.
    repeat split. constructor.
Qed.

(** X8.  LoadExtensions keeps no record of what it has loaded.  A second
    call makes the same calls as the first and appends the same extensions
    once more, so each of them is then owned twice. *)
Theorem LoadExtensions_twice (a : App) :
  exists tr kept,
    LoadExtensions V a = Done tr tt (set_m_exts (m_exts a ++ kept) a) /\
    kept = filter Valid (constructions tr) /\
    (LoadExtensions V ;; LoadExtensions V) a =
      Done (tr ++ tr) tt (set_m_exts (m_exts a ++ kept ++ kept) a).
Proof.
  unfold bind. rewrite LoadExtensions_eq.
  destruct (m_bCanLoadExtensions a) eqn:E.
  - do 2 eexists. split; [reflexivity|].
    split; [apply kept_load|].
    rewrite LoadExtensions_eq. simpl. rewrite E.
    rewrite <- app_assoc. reflexivity.
  - exists [], []. split; [rewrite app_nil_r, set_m_exts_same; reflexivity|].
    split; [reflexivity|].
    rewrite LoadExtensions_eq, E. simpl.
    rewrite app_nil_r, set_m_exts_same. reflexivity.
Qed.

(** X9.  If all owned extensions are valid before LoadExtensions, all are
    valid after it, and unloadExtensions then calls Unload on valid
    extensions only: an Extension that failed to load is never unloaded. *)
Theorem LoadExtensions_keeps_owned_valid (a : App) :
  Forall (fun e => Valid e = true) (m_exts a) ->
  exists tr a',
    LoadExtensions V a = Done tr tt a' /\
    Forall (fun e => Valid e = true) (m_exts a') /\
    Forall (fun e => Valid e = true)
           (unloads (trace_of (unloadExtensions a'))).
Proof.
  intros H.
  assert (K : forall paths,
             Forall (fun e => Valid e = true)
                    (m_exts a ++ flat_map (load_kept V) paths)).
  { intros paths. apply Forall_app. split; [exact H|].
    rewrite kept_load. apply Forall_forall. intros e He.
    apply filter_In in He. tauto. }
  rewrite LoadExtensions_eq.
  destruct (m_bCanLoadExtensions a).
  - do 2 eexists. split; [reflexivity|]. simpl. split; [apply K|].
    rewrite unloadExtensions_eq. simpl.
    rewrite unloads_app, unloads_OnAppClose, unloads_Unload. simpl.
    apply K.
  - exists [], a. split; [reflexivity|]. split; [exact H|].
    rewrite unloadExtensions_eq. simpl.
    rewrite unloads_app, unloads_OnAppClose, unloads_Unload. exact H.
Qed.


End LoadExtensionsFurther.

Lemma LoadExtensions_keeps_owned_valid_witness :
  exists tr a',
    LoadExtensions (fun p => negb (String.eqb p "bad.dll"))
      (set_m_exts [mkExtension "old.dll" true]
         (App_initial (mkAppSettings ["a.dll"; "bad.dll"]))) =
      Done tr tt a' /\
    Forall (fun e => Valid e = true) (m_exts a') /\
    Forall (fun e => Valid e = true)
           (unloads (trace_of (unloadExtensions a'))).
Proof.
  apply (LoadExtensions_keeps_owned_valid
           (fun p => negb (String.eqb p "bad.dll"))
           (set_m_exts [mkExtension "old.dll" true]
              (App_initial (mkAppSettings ["a.dll"; "bad.dll"])))).
  simpl. constructor; [reflexivity|constructor].
Defined.

(** ** Starting up *)

Section StartingUpProperties.

Variable settings : AppSettings.
Variable GetPNPath : PNPath -> tstring.
Variable CreateDirectoryRecursive : tstring -> bool.

Lemma App_App_eq :
  App_App settings GetPNPath CreateDirectoryRecursive =
    Started
      ([InitResourceLoader; NewAppSettings; MakeOptions;
        AppCall (CreateDirectoryRecursiveCall (GetPNPath PNPATH_USERSETTINGS))]
       ++ (if CreateDirectoryRecursive (GetPNPath PNPATH_USERSETTINGS)
           then []
           else [AppCall (UNEXPECTED "Could not create user settings folder")])
       ++ [LoadCache])
      (App_initial settings).
Proof.
  unfold App_App, ensureUserSettingsDir, bind, emit, ret. simpl.
  destruct (CreateDirectoryRecursive (GetPNPath PNPATH_USERSETTINGS));
    reflexivity.
Qed.

(** X11.  The constructor leaves [m_dispatch] NULL, so GetCommandDispatch
    on an App that was constructed and not yet initialised dereferences a
    null pointer.  After Init it returns the dispatcher made for the file
    keymap.dat under the user settings path.  Init loads no extension and
    registers no sink. *)
Theorem GetCommandDispatch_needs_Init :
  exists tr a,
    App_App settings GetPNPath CreateDirectoryRecursive = Started tr a /\
    GetCommandDispatch a = Undefined [] /\
    exists tr' a',
      Init GetPNPath a = Started tr' a' /\
      GetCommandDispatch a' =
        Done [] (mkCommandDispatch
                   (GetPNPath PNPATH_USERSETTINGS ++ "keymap.dat")%string) a' /\
      m_exts a' = [] /\ m_sinks a' = [] /\
      constructions
        (flat_map (fun c => match c with AppCall e => [e] | _ => [] end)
                  (tr ++ tr')) = [].
Proof.
  rewrite App_App_eq. do 2 eexists. split; [reflexivity|].
  split; [reflexivity|].
  do 2 eexists. split; [reflexivity|].
  repeat split. simpl.
  destruct (CreateDirectoryRecursive (GetPNPath PNPATH_USERSETTINGS));
    reflexivity.
Qed.

(** X12.  The constructor goes on when the user settings directory cannot
    be created: it reports the failure and still loads the options cache.
    The App it leaves permits extensions, owns none and has no sink, so a
    LoadExtensions that follows builds an Extension for every entry of the
    configured list that is not disabled. *)
Theorem App_App_permits_loading (V : tstring -> bool) :
  exists tr a,
    App_App settings GetPNPath CreateDirectoryRecursive = Started tr a /\
    last tr InitResourceLoader = LoadCache /\
    (In (AppCall (UNEXPECTED "Could not create user settings folder")) tr <->
     CreateDirectoryRecursive (GetPNPath PNPATH_USERSETTINGS) = false) /\
    m_bCanLoadExtensions a = true /\ m_exts a = [] /\ m_sinks a = [] /\
    GetSettings a = Done [] settings a /\
    constructions (trace_of (LoadExtensions V a)) =
      map (fun p => mkExtension p (V p))
          (filter (fun p => negb (disabled p)) (GetExtensions settings)).
Proof.
  rewrite App_App_eq. do 2 eexists. split; [reflexivity|].
  split; [|split].
  - destruct (CreateDirectoryRecursive (GetPNPath PNPATH_USERSETTINGS));
      reflexivity.
  - destruct (CreateDirectoryRecursive (GetPNPath PNPATH_USERSETTINGS));
      simpl; split; intros H.
    + repeat (destruct H as [H|H]; try discriminate H). contradiction.
    + discriminate H.
    + reflexivity.
    + do 4 right. left. reflexivity.
  - repeat split. rewrite LoadExtensions_eq. simpl.
    apply constructions_load.
Qed.

End StartingUpProperties.

(** ** The input box *)

Lemma strcpy_new_char (src : list ascii) (len : nat) (rest : list cell) :
  tcslen src = Some len ->
  strcpy (repeat None (S len) ++ rest) src =
    Some (map Some (firstn len src) ++ [Some Ascii.zero] ++ rest).
Proof.
  revert len. induction src as [|c src IH]; simpl; intros len H.
  - discriminate.
  - destruct (Ascii.eqb c Ascii.zero) eqn:E.
    + inversion H; subst. apply Ascii.eqb_eq in E. subst c. reflexivity.
    + destruct (tcslen src) as [n|]; simpl in H; [|discriminate].
      inversion H; subst. rewrite (IH n eq_refl). reflexivity.
Qed.

Lemma cells_cstr_copy (src : list ascii) (len : nat) :
  tcslen src = Some len ->
  cells_cstr (map Some (firstn len src) ++ [Some Ascii.zero]) = cstr src.
Proof.
  revert len. induction src as [|c src IH]; simpl; intros len H.
  - discriminate.
  - destruct (Ascii.eqb c Ascii.zero) eqn:E.
    + inversion H; subst. reflexivity.
    + destruct (tcslen src) as [n|]; simpl in H; [|discriminate].
      inversion H; subst. simpl. rewrite E, (IH n eq_refl). reflexivity.
Qed.

Lemma tcslen_cstr (src : list ascii) (len : nat) :
  tcslen src = Some len -> cstr src = Some (firstn len src).
Proof.
  revert len. induction src as [|c src IH]; simpl; intros len H.
  - discriminate.
  - destruct (Ascii.eqb c Ascii.zero).
    + inversion H; subst. reflexivity.
    + destruct (tcslen src) as [n|]; simpl in H; [|discriminate].
      inversion H; subst. simpl. rewrite (IH n eq_refl). reflexivity.
Qed.

Lemma tcslen_firstn_length (src : list ascii) (len : nat) :
  tcslen src = Some len -> List.length (firstn len src) = len.
Proof.
  revert len. induction src as [|c src IH]; simpl; intros len H.
  - discriminate.
  - destruct (Ascii.eqb c Ascii.zero).
    + inversion H; subst. reflexivity.
    + destruct (tcslen src) as [n|]; simpl in H; [|discriminate].
      inversion H; subst. simpl. rewrite (IH n eq_refl). reflexivity.
Qed.

Section InputBoxProperties.

Variable DoModal : tstring -> tstring -> Z.
Variable GetInput : tstring -> tstring -> option (list ascii).

(** X13.  When the dialog is confirmed and has an input, InputBox returns an
    array of exactly one char more than the length of the input, every char
    of it written: the copy stays inside the array, and the C string in it
    is the text entered.  An empty input gives an array of one null char,
    not NULL.  The bound on the length is the one of a string in memory. *)
Theorem InputBox_copies_input
        (title caption : tstring) (input : list ascii) (len : nat) :
  DoModal title caption = IDOK ->
  GetInput title caption = Some input ->
  tcslen input = Some len ->
  (Z.of_nat len < npos)%Z ->
  exists result,
    InputBox DoModal GetInput title caption = Some (Some result) /\
    List.length result = S len /\
    result = map Some (firstn len input) ++ [Some Ascii.zero] /\
    cells_cstr result = cstr input /\
    cstr input = Some (firstn len input).
Proof.
  intros Hok Hin Hlen Hb.
  exists (map Some (firstn len input) ++ [Some Ascii.zero]).
  pose proof (tcslen_firstn_length input len Hlen) as Hfirst.
  split; [|split; [|split; [reflexivity|split]]].
  - unfold InputBox. rewrite Hok, Z.eqb_refl, Hin, Hlen.
    unfold to_size_t. unfold npos in Hb.
    rewrite Z.mod_small by lia.
    unfold new_char.
    replace (Z.to_nat (Z.of_nat len + 1)) with (S len) by lia.
    rewrite <- (app_nil_r (repeat None (S len))).
    exact (f_equal (option_map Some) (strcpy_new_char input len [] Hlen)).
  - rewrite length_app, length_map, Hfirst. simpl. lia.
  - apply cells_cstr_copy, Hlen.
  - apply tcslen_cstr, Hlen.
Qed.

(** X14.  InputBox returns NULL exactly when the dialog was not confirmed
    or has no input. *)
Theorem InputBox_NULL (title caption : tstring) :
  InputBox DoModal GetInput title caption = Some None <->
  DoModal title caption <> IDOK \/ GetInput title caption = None.
Proof.
  unfold InputBox.
  destruct (DoModal title caption =? IDOK)%Z eqn:E.
  - apply Z.eqb_eq in E.
    destruct (GetInput title caption) as [input|].
    + split.
      * destruct (tcslen input); [|discriminate].
        destruct (strcpy _ input); discriminate.
      * intros [H|H]; [contradiction|discriminate].
    + split; [right; reflexivity|reflexivity].
  - apply Z.eqb_neq in E. split; [left; exact E|reflexivity].
Qed.

End InputBoxProperties.

Lemma InputBox_copies_input_witness :
  exists result,
    InputBox (fun _ _ => 1%Z)
             (fun _ _ => Some ["h"; "i"; Ascii.zero; "x"]%char)
             "Title" "Caption" = Some (Some result) /\
    List.length result = 3 /\
    result = [Some "h"; Some "i"; Some Ascii.zero]%char /\
    cells_cstr result = cstr ["h"; "i"; Ascii.zero; "x"]%char /\
    cstr ["h"; "i"; Ascii.zero; "x"]%char = Some ["h"; "i"]%char.
Proof.
  apply (InputBox_copies_input (fun _ _ => 1%Z)
           (fun _ _ => Some ["h"; "i"; Ascii.zero; "x"]%char)
           "Title" "Caption" ["h"; "i"; Ascii.zero; "x"]%char 2).
  - reflexivity.
  - reflexivity.
  - reflexivity.
  - vm_compute. reflexivity.
Defined.
